(** * Street Canopy Priority Index backend (src/app/api/server.js) and the
    place lookup of the chat panel (src/app/athens-map-chat/src/App.jsx).

    JavaScript numbers are modelled through the interface [JSNum] of the
    operations the code uses.  Two instances are given: IEEE binary64
    arithmetic on Rocq's primitive floats (what node.js computes) and exact
    rational arithmetic on [Q] (the arithmetic the comments of the code and
    the spec reason in).  Concrete values are evaluated in both; universal
    properties of the arithmetic are proved over [Q]; properties of the
    store that do not depend on arithmetic are proved for every instance. *)

From Stdlib Require Import ZArith QArith Qround Qminmax Floats.
From Stdlib Require Import String Ascii List Bool Sorted Permutation Lia Lqa.
Import ListNotations.

(** ** JavaScript numbers *)

Class JSNum (A : Type) := {
  js_add : A -> A -> A;             (* [+] *)
  js_sub : A -> A -> A;             (* [-] *)
  js_mul : A -> A -> A;             (* [*] *)
  js_div : A -> A -> A;             (* [/] *)
  js_lit : Z -> positive -> A;      (* a numeric literal n/d, e.g. [0.4] is [js_lit 4 10] *)
  js_round : A -> A;                (* [Math.round] *)
  js_min : A -> A -> A;             (* [Math.min] *)
  js_max : A -> A -> A;             (* [Math.max] *)
  js_ltb : A -> A -> bool           (* [<] *)
}.

Declare Scope js_scope.
Delimit Scope js_scope with js.
Infix "+" := js_add : js_scope.
Infix "-" := js_sub : js_scope.
Infix "*" := js_mul : js_scope.
Infix "/" := js_div : js_scope.
Infix "<" := js_ltb : js_scope.
Notation "n # d" := (js_lit n d) : js_scope.

(** *** IEEE binary64 (node.js numbers) *)

Module F.

Definition of_Z (z : Z) : float :=
  let a := PrimFloat.of_uint63 (Uint63.of_Z (Z.abs z)) in
  if (z <? 0)%Z then PrimFloat.opp a else a.

(** [Math.round x]: the integer closest to [x], ties towards +infinity,
    i.e. floor (x + 1/2) computed exactly.  A finite float with a
    nonnegative exponent is already an integer; one with a negative
    exponent has magnitude below 2^53, so the result fits [of_Z].  A result
    of -0 (JS, for x in [-0.5, 0)) is returned as +0. *)
Definition round (x : float) : float :=
  match Prim2SF x with
  | S754_finite s m e =>
      if (0 <=? e)%Z then x
      else
        let zm := if s then Z.neg m else Z.pos m in
        of_Z ((2 * zm + 2 ^ (- e)) / 2 ^ (1 - e))
  | _ => x
  end.

(** [Math.min] / [Math.max]: NaN if an argument is NaN; -0 is below +0. *)
Definition min (a b : float) : float :=
  if is_nan a || is_nan b then nan
  else if PrimFloat.ltb a b then a
  else if PrimFloat.ltb b a then b
  else if get_sign a then a else b.

Definition max (a b : float) : float :=
  if is_nan a || is_nan b then nan
  else if PrimFloat.ltb a b then b
  else if PrimFloat.ltb b a then a
  else if get_sign a then b else a.

End F.

#[export] Instance JSNum_float : JSNum float := {
  js_add := PrimFloat.add;
  js_sub := PrimFloat.sub;
  js_mul := PrimFloat.mul;
  js_div := PrimFloat.div;
  (* division of two exact integers is correctly rounded: the nearest
     double to n/d, which is the value of the decimal literal *)
  js_lit n d := PrimFloat.div (F.of_Z n) (F.of_Z (Zpos d));
  js_round := F.round;
  js_min := F.min;
  js_max := F.max;
  js_ltb := PrimFloat.ltb
}.

(** *** Exact rationals *)

#[export] Instance JSNum_Q : JSNum Q := {
  js_add := Qplus;
  js_sub := Qminus;
  js_mul := Qmult;
  js_div := Qdiv;
  js_lit n d := Qmake n d;
  js_round x := inject_Z (Qfloor (x + (1 # 2)));
  js_min := Qmin;
  js_max := Qmax;
  js_ltb x y := negb (Qle_bool y x)
}.

(** ** Data model *)

Section Model.
Context {A : Type} `{JSNum A}.
#[local] Open Scope js_scope.

(** [loc.metrics] *)
Record metrics := mkMetrics {
  LST : A;                 (* heat index *)
  NDVI : A;                (* vegetation, "assuming already inverted" *)
  PopulationDensity : A;
  CCS : A;                 (* citizen cooling score *)
  FeasibilityScore : A;
  AirQuality : A
}.

(** An entry of [RAW_LOCATIONS] *)
Record raw_location := mkRaw {
  raw_id : Z;
  raw_name : string;
  raw_coords : A * A;
  raw_info : string;
  raw_metrics : metrics
}.

(** An entry of [LOCATIONS]: [{ ...loc, s_cpi: computeSCPI(loc.metrics) }] *)
Record location := mkLocation {
  id : Z;
  name : string;
  coords : A * A;
  info : string;
  loc_metrics : metrics;
  s_cpi : A
}.

(** [computeSCPI(m)] *)
Definition computeSCPI (m : metrics) : A :=
  let base :=
    (4 # 10) * LST m +
    (3 # 10) * ((100 # 1) - NDVI m) +
    (2 # 10) * PopulationDensity m +
    (1 # 10) * CCS m in
  let s_cpi := base * FeasibilityScore m in
  js_max (0 # 1) (js_min (100 # 1) (js_round (s_cpi * (10 # 1)) / (10 # 1))).

(** [RAW_LOCATIONS.map((loc) => ({ ...loc, s_cpi: computeSCPI(loc.metrics) }))] *)
Definition with_scpi (r : raw_location) : location :=
  {| id := raw_id r; name := raw_name r; coords := raw_coords r;
     info := raw_info r; loc_metrics := raw_metrics r;
     s_cpi := computeSCPI (raw_metrics r) |}.

Definition RAW_LOCATIONS : list raw_location := [
  {| raw_id := 1; raw_name := "Monastiraki";
     raw_coords := (37976 # 1000, 237258 # 10000);
     raw_info := "Dense, highly built-up area with limited street tree cover.";
     raw_metrics := mkMetrics (98 # 1) (1 # 1) (92 # 1) (85 # 1) (8 # 10) (70 # 1) |};
  {| raw_id := 2; raw_name := "Syntagma Square";
     raw_coords := (379755 # 10000, 237348 # 10000);
     raw_info := "Central square with heavy traffic and heat-island effects.";
     raw_metrics := mkMetrics (82 # 1) (20 # 1) (88 # 1) (80 # 1) (9 # 10) (65 # 1) |};
  {| raw_id := 3; raw_name := "Panathenaic Stadium";
     raw_coords := (37968 # 1000, 23741 # 1000);
     raw_info := "Large open area with some potential for perimeter greening.";
     raw_metrics := mkMetrics (75 # 1) (45 # 1) (70 # 1) (60 # 1) (85 # 100) (60 # 1) |};
  {| raw_id := 4; raw_name := "Acropolis of Athens";
     raw_coords := (379715 # 10000, 237267 # 10000);
     raw_info := "Historic area; limited planting but high exposure to heat.";
     raw_metrics := mkMetrics (80 # 1) (35 # 1) (65 # 1) (55 # 1) (6 # 10) (68 # 1) |};
  {| raw_id := 5; raw_name := "National Garden";
     raw_coords := (379732 # 10000, 23737 # 1000);
     raw_info := "Already quite green; relatively lower additional need.";
     raw_metrics := mkMetrics (60 # 1) (20 # 1) (50 # 1) (45 # 1) (7 # 10) (55 # 1) |}
].

Definition LOCATIONS : list location := map with_scpi RAW_LOCATIONS.

End Model.

Arguments metrics A : clear implicits.
Arguments raw_location A : clear implicits.
Arguments location A : clear implicits.

(** ** Strings *)

(** [String.prototype.toLowerCase], on the ASCII letters (every place name
    of the fixture is ASCII). *)
Definition lower_ascii (c : ascii) : ascii :=
  let n := nat_of_ascii c in
  if (65 <=? n)%nat && (n <=? 90)%nat then ascii_of_nat (n + 32) else c.

Fixpoint toLowerCase (s : string) : string :=
  match s with
  | EmptyString => EmptyString
  | String c s' => String (lower_ascii c) (toLowerCase s')
  end.

(** [s.includes(t)]: [t] occurs in [s] at some position. *)
Fixpoint includes (s t : string) : bool :=
  String.prefix t s ||
  match s with
  | EmptyString => false
  | String _ s' => includes s' t
  end.

(** ** The reply of [/api/chat]: [{ reply, placeName, reportType, reportIntensity }].
    [None] stands for [null] or an absent field.  The strict JSON schema sent
    upstream restricts the parsed object to this shape. *)
Record chat_reply := mkReply {
  reply : string;
  placeName : option string;
  reportType : option string;
  reportIntensity : option string
}.

(** The outcome of [await client.chat.completions.create(...)] read as
    [response.choices[0].message.content]: a rejection, or the raw text. *)
Inductive upstream :=
| UpstreamFail
| UpstreamContent (raw : string).

(** [Array.prototype.findIndex]-style search, and the in-place update of the
    object found (each entry of [LOCATIONS] is a distinct object). *)
Fixpoint find_index {T} (p : T -> bool) (l : list T) : option nat :=
  match l with
  | [] => None
  | x :: l' => if p x then Some 0%nat else option_map S (find_index p l')
  end.

Fixpoint update_nth {T} (n : nat) (f : T -> T) (l : list T) : list T :=
  match l, n with
  | [], _ => []
  | x :: l', 0%nat => f x :: l'
  | x :: l', S n' => x :: update_nth n' f l'
  end.

Section Store.
Context {A : Type} `{JSNum A}.
#[local] Open Scope string_scope.
#[local] Open Scope js_scope.

(** [switch (parsed.reportIntensity) { case 'high': ... default: ... }] *)
Definition report_delta (intensity : option string) : A :=
  match intensity with
  | Some s =>
      if String.eqb s "high" then 2 # 1
      else if String.eqb s "medium" then 1 # 1
      else 1 # 10
  | None => 1 # 10
  end.

(** [Math.max(0, Math.min(100, loc.metrics.CCS + delta))] *)
Definition applyReportDelta (ccs : A) (intensity : option string) : A :=
  js_max (0 # 1) (js_min (100 # 1) (ccs + report_delta intensity)).

(** [LOCATIONS.find((l) => l.name === placeName) ||
     LOCATIONS.find((l) => l.name.toLowerCase() === placeName.toLowerCase())],
    returning the position of the object found. *)
Definition find_location (locs : list (location A)) (p : string) : option nat :=
  match find_index (fun l => String.eqb (name l) p) locs with
  | Some i => Some i
  | None => find_index (fun l => String.eqb (toLowerCase (name l)) (toLowerCase p)) locs
  end.

(** [loc.metrics.CCS = ...; loc.s_cpi = computeSCPI(loc.metrics);] *)
Definition bump (intensity : option string) (loc : location A) : location A :=
  let m := loc_metrics loc in
  let m' := {| LST := LST m; NDVI := NDVI m;
               PopulationDensity := PopulationDensity m;
               CCS := applyReportDelta (CCS m) intensity;
               FeasibilityScore := FeasibilityScore m;
               AirQuality := AirQuality m |} in
  {| id := id loc; name := name loc; coords := coords loc; info := info loc;
     loc_metrics := m'; s_cpi := computeSCPI m' |}.

Definition is_cooling_problem (t : option string) : bool :=
  match t with
  | Some s => String.eqb s "cooling_problem"
  | None => false
  end.

(** [if (parsed.placeName && parsed.reportType === 'cooling_problem') {...}];
    a string is truthy when it is not empty. *)
Definition apply_report (locs : list (location A)) (parsed : chat_reply) : list (location A) :=
  match placeName parsed with
  | Some p =>
      if negb (String.eqb p "") && is_cooling_problem (reportType parsed) then
        match find_location locs p with
        | Some i => update_nth i (bump (reportIntensity parsed)) locs
        | None => locs
        end
      else locs
  | None => locs
  end.

(** The spec's [recordReport(name, intensity)]: the report block run on a
    reply that names [nm] with report type ["cooling_problem"]. *)
Definition recordReport (locs : list (location A)) (nm : string) (intensity : option string)
  : list (location A) :=
  apply_report locs (mkReply "" (Some nm) (Some "cooling_problem") intensity).

Definition fallback_reply : chat_reply :=
  mkReply "Sorry, I couldn't reach the AI server. Please try again later."
          None (Some "none") None.

(** [app.post('/api/chat', ...)]: the new store, the HTTP status and the body.
    [json_parse] is [JSON.parse], [None] when it throws. *)
Definition chat_handler (json_parse : string -> option chat_reply)
    (locs : list (location A)) (u : upstream) : list (location A) * (Z * chat_reply) :=
  match u with
  | UpstreamFail => (locs, (500%Z, fallback_reply))
  | UpstreamContent raw =>
      let parsed :=
        match json_parse raw with
        | Some p => p
        | None => mkReply raw None None None
        end in
      (apply_report locs parsed, (200%Z, parsed))
  end.

(** The stores the server goes through: [LOCATIONS] at start-up, then one
    [/api/chat] request after another ([GET /api/locations] sorts a copy and
    leaves the store as it is). *)
Inductive reachable : list (location A) -> Prop :=
| reach_init : reachable LOCATIONS
| reach_chat json_parse locs u :
    reachable locs -> reachable (fst (chat_handler json_parse locs u)).

(** [(a, b) => b.s_cpi - a.s_cpi] *)
Definition sort_compare (a b : location A) : A := s_cpi b - s_cpi a.

(** [Array.prototype.sort] is stable; with a consistent comparator every
    stable sort returns the same list, here computed by insertion: [x] goes
    before [y] exactly when [compare(x, y) < 0]. *)
Fixpoint insert_by (x : location A) (l : list (location A)) : list (location A) :=
  match l with
  | [] => [x]
  | y :: l' => if sort_compare x y < (0 # 1) then x :: y :: l' else y :: insert_by x l'
  end.

Definition sort_by_compare (l : list (location A)) : list (location A) :=
  fold_left (fun acc x => insert_by x acc) l [].

(** [app.get('/api/locations', ...)]: [[...LOCATIONS].sort(...)] *)
Definition get_locations (locs : list (location A)) : list (location A) :=
  sort_by_compare locs.

(** The predicate passed to [locations.find] in [findLocationFromName] *)
Definition location_matches (target : string) (loc : location A) : bool :=
  String.eqb (toLowerCase (name loc)) target ||
  includes (toLowerCase (name loc)) target ||
  includes target (toLowerCase (name loc)).

(** [findLocationFromName] in [ChatbotPanel] (App.jsx) *)
Definition findLocationFromName (locations : list (location A)) (placeName : option string)
  : option (location A) :=
  match placeName with
  | None => None
  | Some p =>
      if String.eqb p "" then None
      else find (location_matches (toLowerCase p)) locations
  end.

(** No lower-cased place name occurs inside another one (pairwise, by position). *)
Fixpoint names_unambiguous (locations : list (location A)) : bool :=
  match locations with
  | [] => true
  | x :: l' =>
      forallb (fun y => negb (includes (toLowerCase (name x)) (toLowerCase (name y))) &&
                        negb (includes (toLowerCase (name y)) (toLowerCase (name x)))) l' &&
      names_unambiguous l'
  end.

End Store.

(** ** The score formula and the report deltas as the spec states them *)

Module Spec.
#[local] Open Scope Q_scope.

(** Rounding to one decimal, half up at the tenths digit. *)
Definition round_tenths (x : Q) : Q := inject_Z (Qfloor (10 * x + (1 # 2))) / 10.

Definition clamp (lo hi x : Q) : Q := Qmax lo (Qmin hi x).

(** computePriorityIndex: weighted base, scaled by feasibility, clamped to
    [0,100], rounded to one decimal. *)
Definition computePriorityIndex (m : metrics Q) : Q :=
  let heatIndex := LST m in
  let vegetationDeficit := NDVI m in
  let populationDensity := PopulationDensity m in
  let citizenCoolingScore := CCS m in
  let base := 0.4 * heatIndex + 0.3 * (100 - vegetationDeficit) +
              0.2 * populationDensity + 0.1 * citizenCoolingScore in
  round_tenths (clamp 0 100 (base * FeasibilityScore m)).

(** high -> +2, medium -> +1, low -> +0.1; unrecognised or absent -> as low *)
Definition delta_table : list (string * Q) :=
  [("high"%string, 2); ("medium"%string, 1); ("low"%string, 0.1)].

Definition delta (intensity : option string) : Q :=
  match intensity with
  | Some s =>
      match find (fun e => String.eqb (fst e) s) delta_table with
      | Some e => snd e
      | None => 0.1
      end
  | None => 0.1
  end.

Definition applyReportDelta (currentCoolingScore : Q) (intensity : option string) : Q :=
  clamp 0 100 (currentCoolingScore + delta intensity).

End Spec.

(** The metrics of the worked example of the spec (air quality is not used). *)
Definition example_metrics {A} `{JSNum A} : metrics A :=
  mkMetrics (98 # 1)%js (1 # 1)%js (92 # 1)%js (85 # 1)%js (8 # 10)%js (70 # 1)%js.

(** ** The chat panel (App.jsx) *)

(** What [callChatApi] hands back to [sendMessage]: the parsed body, or a
    throw ([if (!res.ok) throw new Error('Network error')]). *)
Inductive api_result :=
| ApiOk (body : chat_reply)
| ApiThrow.

(** [callChatApi] on the server's answer (status, body); [res.ok] is a
    status in 200..299. *)
Definition callChatApi (resp : Z * chat_reply) : api_result :=
  if (200 <=? fst resp)%Z && (fst resp <=? 299)%Z then ApiOk (snd resp) else ApiThrow.

(** The observable outcome of one [sendMessage]: the bot message text, the id
    passed to [onSelectLocation], and whether [onLocationsUpdated] (in [App]
    always the function [reloadLocations]) is called. *)
Record bot_turn := mkTurn {
  bot_text : string;
  selected : option Z;
  reload : bool
}.

Section Panel.
#[local] Open Scope string_scope.

Definition newline : string := String "010"%char EmptyString.

Definition frontend_fallback_text : string :=
  "Sorry, I had a problem talking to my brain in the cloud. Please try again in a moment.".

Definition highlight_note (nm : string) : string :=
  newline ++ newline ++ "(I’ve highlighted **" ++ nm ++ "** on the map.)".

Definition report_note : string :=
  newline ++ newline ++
  "Your report increases the Citizen Cooling Score for this area, which raises its priority for new trees. 🌳".

(** [sendMessage] after [await callChatApi(text)]:
    [reportType = result.reportType || 'none'], the [catch] fallback, the
    highlight through [findLocationFromName], and the refresh on a
    ["cooling_problem"] report. *)
Definition sendMessage_outcome {A : Type} `{JSNum A} (locations : list (location A))
    (r : api_result) : bot_turn :=
  let '(reply0, placeName0, reportType0) :=
    match r with
    | ApiOk result =>
        (reply result, placeName result,
         match reportType result with
         | Some t => if String.eqb t "" then "none" else t
         | None => "none"
         end)
    | ApiThrow => (frontend_fallback_text, None, "none")
    end in
  let highlightedLoc := findLocationFromName locations placeName0 in
  let reply1 :=
    match highlightedLoc with
    | Some l => reply0 ++ highlight_note (name l)
    | None => reply0
    end in
  let cooling := String.eqb reportType0 "cooling_problem" in
  let reply2 :=
    if cooling then
      match highlightedLoc with
      | Some _ => reply1 ++ report_note
      | None => reply1
      end
    else reply1 in
  {| bot_text := reply2; selected := option_map id highlightedLoc; reload := cooling |}.

(** [reloadLocations]: [locs.sort((a, b) => b.s_cpi - a.s_cpi)] on the
    fetched list, the same comparator as the server's. *)
Definition reloadLocations_sort {A : Type} `{JSNum A} (locs : list (location A)) : list (location A) :=
  sort_by_compare locs.

End Panel.

(** ** Map helpers (App.jsx), in exact arithmetic *)

Module Pin.
#[local] Open Scope Q_scope.

(** [Math.round], whose result is an integer. *)
Definition round_Z (x : Q) : Z := Qfloor (x + (1 # 2)).

(** [sCpiToColor]: the channels of [`rgb(${r},${g},${b})`]. *)
Definition sCpiToColor (s_cpi : Q) : Z * Z * Z :=
  if Qle_bool s_cpi 50 then
    let ratio := s_cpi / 50 in
    let r := round_Z (0 + ratio * (255 - 0)) in
    let g := round_Z (200 + ratio * (235 - 200)) in
    let b := 83%Z in
    (r, g, b)
  else
    let ratio := (s_cpi - 50) / 50 in
    let r := (255 - round_Z (ratio * (255 - 213)))%Z in
    let g := (235 - round_Z (ratio * (235 - 0)))%Z in
    let b := (59 - round_Z (ratio * (59 - 0)))%Z in
    (r, g, b).

(** [sCpiToSize] *)
Definition sCpiToSize (s_cpi : Q) : Q :=
  let minSize := 12 in
  let maxSize := 28 in
  minSize + ((s_cpi / 100) * (maxSize - minSize)).

(** [createPinIcon]: [iconSize] and [iconAnchor]. *)
Definition pin_geometry (s_cpi : Q) : (Q * Q) * (Q * Q) :=
  let size := sCpiToSize s_cpi in
  ((size, size), (size / 2, size / 2)).

(** One point of [SCPHeatmap]: [[lat, lng, intensity]] *)
Definition heat_point (loc : location Q) : Q * Q * Q :=
  let lat := fst (coords loc) in
  let lng := snd (coords loc) in
  let intensity := Qmax 0 (Qmin 1 (s_cpi loc / 100)) in
  (lat, lng, intensity).

Definition heat_points (locations : list (location Q)) : list (Q * Q * Q) :=
  map heat_point locations.

End Pin.

(** * Properties *)

Module ScoreQ.
#[local] Open Scope Q_scope.

Lemma round_tenths_compat x y : x == y -> Spec.round_tenths x == Spec.round_tenths y.
Proof.
  intros Hxy. unfold Spec.round_tenths.
  rewrite (Qfloor_comp (10 * x + (1 # 2)) (10 * y + (1 # 2))) by (rewrite Hxy; reflexivity).
  reflexivity.
Qed.

Lemma inject_Z_div10_le a b : (a <= b)%Z -> inject_Z a / 10 <= inject_Z b / 10.
Proof. intros Hab. unfold Qle, Qdiv, Qmult, Qinv, inject_Z; simpl. lia. Qed.

Lemma round_tenths_mono x y : x <= y -> Spec.round_tenths x <= Spec.round_tenths y.
Proof.
  intros Hxy. unfold Spec.round_tenths. apply inject_Z_div10_le, Qfloor_resp_le. lra.
Qed.

(** The source multiplies by 10 on the right. *)
Lemma js_round_tenths (x : Q) :
  (js_round (x * (10 # 1))%js / (10 # 1))%js == Spec.round_tenths x.
Proof.
  cbn [js_round js_mul js_div js_lit JSNum_Q]. unfold Spec.round_tenths.
  rewrite (Qfloor_comp (x * (10 # 1) + (1 # 2)) (10 * x + (1 # 2))) by ring.
  reflexivity.
Qed.

(** Rounding then clamping is clamping then rounding: 0 and 100 are fixed
    points of the rounding, which is monotone. *)
Lemma clamp_round_comm x :
  Qmax 0 (Qmin 100 (Spec.round_tenths x)) == Spec.round_tenths (Spec.clamp 0 100 x).
Proof.
  assert (R0 : Spec.round_tenths 0 == 0) by reflexivity.
  assert (R100 : Spec.round_tenths 100 == 100) by reflexivity.
  unfold Spec.clamp.
  destruct (Qlt_le_dec x 0) as [Hx0 | Hx0].
  - assert (Hr : Spec.round_tenths x <= 0)
      by (rewrite <- R0; apply round_tenths_mono; lra).
    assert (Hc : Qmax 0 (Qmin 100 x) == 0)
      by (rewrite (Q.min_r 100 x) by lra; apply Q.max_l; lra).
    rewrite (round_tenths_compat _ _ Hc), R0.
    rewrite (Q.min_r 100 (Spec.round_tenths x)) by lra. apply Q.max_l; lra.
  - destruct (Qlt_le_dec x 100) as [Hx100 | Hx100].
    + assert (Hr0 : 0 <= Spec.round_tenths x)
        by (rewrite <- R0; apply round_tenths_mono; lra).
      assert (Hr100 : Spec.round_tenths x <= 100)
        by (rewrite <- R100; apply round_tenths_mono; lra).
      assert (Hc : Qmax 0 (Qmin 100 x) == x)
        by (rewrite (Q.min_r 100 x) by lra; apply Q.max_r; lra).
      rewrite (round_tenths_compat _ _ Hc).
      rewrite (Q.min_r 100 (Spec.round_tenths x)) by lra. apply Q.max_r; lra.
    + assert (Hr : 100 <= Spec.round_tenths x)
        by (rewrite <- R100; apply round_tenths_mono; lra).
      assert (Hc : Qmax 0 (Qmin 100 x) == 100)
        by (rewrite (Q.min_l 100 x) by lra; apply Q.max_r; lra).
      rewrite (round_tenths_compat _ _ Hc), R100.
      rewrite (Q.min_l 100 (Spec.round_tenths x)) by lra. apply Q.max_r; lra.
Qed.

Lemma computeSCPI_Q_eq (m : metrics Q) :
  computeSCPI m == Spec.computePriorityIndex m.
Proof.
  unfold computeSCPI, Spec.computePriorityIndex.
  rewrite js_round_tenths. apply clamp_round_comm.
Qed.

End ScoreQ.



Lemma report_delta_Q_spec (intensity : option string) :
  report_delta (A := Q) intensity = Spec.delta intensity.
Proof.
  destruct intensity as [s |]; [| reflexivity].
  unfold report_delta, Spec.delta; cbn [find Spec.delta_table fst snd].
  rewrite (String.eqb_sym "high" s), (String.eqb_sym "medium" s).
  destruct (String.eqb s "high"); [reflexivity |].
  destruct (String.eqb s "medium"); [reflexivity |].
  destruct (String.eqb "low" s); reflexivity.
Qed.

Lemma report_delta_Q_pos (intensity : option string) :
  (0 < report_delta (A := Q) intensity)%Q.
Proof.
  unfold report_delta.
  destruct intensity as [s |]; [| reflexivity].
  destruct (String.eqb s "high"); [reflexivity |].
  destruct (String.eqb s "medium"); reflexivity.
Qed.




(** ** The store *)

Section StoreFacts.
Context {A : Type} `{JSNum A}.
#[local] Open Scope string_scope.

Lemma length_update_nth {T} (n : nat) (f : T -> T) (l : list T) :
  length (update_nth n f l) = length l.
Proof.
  revert n; induction l as [| x l IH]; intros [| n]; simpl; auto.
Qed.

Lemma nth_error_update_nth_eq {T} (n : nat) (f : T -> T) (l : list T) (x : T) :
  nth_error l n = Some x -> nth_error (update_nth n f l) n = Some (f x).
Proof.
  revert n; induction l as [| y l IH]; intros [| n] Hn; simpl in *;
    try discriminate; auto; congruence.
Qed.

Lemma nth_error_update_nth_neq {T} (n m : nat) (f : T -> T) (l : list T) :
  m <> n -> nth_error (update_nth n f l) m = nth_error l m.
Proof.
  revert n m; induction l as [| y l IH]; intros [| n] [| m] Hmn; simpl; auto; try lia;
    apply IH; lia.
Qed.

Lemma Forall_update_nth {T} (P : T -> Prop) (n : nat) (f : T -> T) (l : list T) :
  (forall x, P (f x)) -> Forall P l -> Forall P (update_nth n f l).
Proof.
  intros Hf Hl; revert n; induction Hl as [| y l Hy Hl IH]; intros [| n]; simpl;
    constructor; auto.
Qed.

Lemma find_index_none {T} (p : T -> bool) (l : list T) :
  (forall x, In x l -> p x = false) -> find_index p l = None.
Proof.
  induction l as [| y l IH]; intros Hl; simpl; [reflexivity |].
  rewrite (Hl y (or_introl eq_refl)), IH; [reflexivity |].
  intros x Hx; apply Hl; right; exact Hx.
Qed.

Lemma bump_fresh (intensity : option string) (loc : location A) :
  s_cpi (bump intensity loc) = computeSCPI (loc_metrics (bump intensity loc)).
Proof. reflexivity. Qed.

Lemma apply_report_fresh (locs : list (location A)) (parsed : chat_reply) :
  Forall (fun l => s_cpi l = computeSCPI (loc_metrics l)) locs ->
  Forall (fun l => s_cpi l = computeSCPI (loc_metrics l)) (apply_report locs parsed).
Proof.
  intros Hf. unfold apply_report.
  destruct (placeName parsed) as [p |]; [| exact Hf].
  destruct (negb (String.eqb p "") && is_cooling_problem (reportType parsed)); [| exact Hf].
  destruct (find_location locs p) as [i |]; [| exact Hf].
  apply Forall_update_nth; [apply bump_fresh | exact Hf].
Qed.

Lemma find_location_unresolved (locs : list (location A)) (nm : string) :
  (forall l, In l locs -> name l <> nm /\ toLowerCase (name l) <> toLowerCase nm) ->
  find_location locs nm = None.
Proof.
  intros Hn. unfold find_location.
  rewrite find_index_none.
  - apply find_index_none. intros l Hl. apply String.eqb_neq, (Hn l Hl).
  - intros l Hl. apply String.eqb_neq, (Hn l Hl).
Qed.

Lemma apply_report_unresolved (locs : list (location A)) (parsed : chat_reply) (nm : string) :
  placeName parsed = Some nm -> find_location locs nm = None ->
  apply_report locs parsed = locs.
Proof.
  intros Hp Hf. unfold apply_report. rewrite Hp, Hf.
  destruct (_ && _); reflexivity.
Qed.

End StoreFacts.

(** C4: after [recordReport "Monastiraki" "medium"] on a store where the name
    resolves (to position [i]), that record's [CCS] is
    [Math.max(0, Math.min(100, CCS + 1))], its [s_cpi] is [computeSCPI] of its
    new metrics, all its other fields are unchanged, and every other record is
    unchanged; this holds for every number instance. *)
Theorem recordReport_medium_frame {A : Type} `{JSNum A}
    (locs : list (location A)) (i : nat) (loc : location A) :
  find_location locs "Monastiraki" = Some i ->
  nth_error locs i = Some loc ->
  let locs' := recordReport locs "Monastiraki" (Some "medium"%string) in
  length locs' = length locs /\
  (forall j, j <> i -> nth_error locs' j = nth_error locs j) /\
  exists loc',
    nth_error locs' i = Some loc' /\
    CCS (loc_metrics loc') = js_max (0 # 1)%js (js_min (100 # 1)%js (CCS (loc_metrics loc) + (1 # 1))%js) /\
    s_cpi loc' = computeSCPI (loc_metrics loc') /\
    id loc' = id loc /\ name loc' = name loc /\ coords loc' = coords loc /\
    info loc' = info loc /\
    LST (loc_metrics loc') = LST (loc_metrics loc) /\
    NDVI (loc_metrics loc') = NDVI (loc_metrics loc) /\
    PopulationDensity (loc_metrics loc') = PopulationDensity (loc_metrics loc) /\
    FeasibilityScore (loc_metrics loc') = FeasibilityScore (loc_metrics loc) /\
    AirQuality (loc_metrics loc') = AirQuality (loc_metrics loc).
Proof.
  intros Hfind Hnth locs'.
  assert (Hr : locs' = update_nth i (bump (Some "medium"%string)) locs)
    by (unfold locs', recordReport, apply_report; simpl; rewrite Hfind; reflexivity).
  rewrite Hr. split; [apply length_update_nth |]. split.
  - intros j Hj. apply nth_error_update_nth_neq, Hj.
  - exists (bump (Some "medium"%string) loc).
    split; [apply nth_error_update_nth_eq, Hnth |].
    repeat split.
Qed.

Lemma recordReport_medium_frame_witness :
  exists loc : location Q,
    find_location LOCATIONS "Monastiraki" = Some 0%nat /\
    nth_error LOCATIONS 0 = Some loc /\
    let locs' := recordReport LOCATIONS "Monastiraki" (Some "medium"%string) in
    length locs' = length LOCATIONS /\
    (forall j, j <> 0%nat -> nth_error locs' j = nth_error LOCATIONS j) /\
    exists loc',
      nth_error locs' 0 = Some loc' /\
      CCS (loc_metrics loc') = js_max (0 # 1)%js (js_min (100 # 1)%js (CCS (loc_metrics loc) + (1 # 1))%js) /\
      s_cpi loc' = computeSCPI (loc_metrics loc') /\
      id loc' = id loc /\ name loc' = name loc /\ coords loc' = coords loc /\
      info loc' = info loc /\
      LST (loc_metrics loc') = LST (loc_metrics loc) /\
      NDVI (loc_metrics loc') = NDVI (loc_metrics loc) /\
      PopulationDensity (loc_metrics loc') = PopulationDensity (loc_metrics loc) /\
      FeasibilityScore (loc_metrics loc') = FeasibilityScore (loc_metrics loc) /\
      AirQuality (loc_metrics loc') = AirQuality (loc_metrics loc).
Proof.
  eexists. split; [reflexivity |]. split; [reflexivity |].
  apply (recordReport_medium_frame LOCATIONS 0 _); reflexivity.
Defined.

(** C5: in every store the server reaches (the fixture load, then any
    sequence of [/api/chat] requests, each possibly applying a report), every
    record's [s_cpi] equals [computeSCPI] of its current metrics. *)
Theorem reachable_scpi_fresh {A : Type} `{JSNum A} (s : list (location A)) :
  reachable s -> Forall (fun l => s_cpi l = computeSCPI (loc_metrics l)) s.
Proof.
  induction 1 as [| json_parse locs u _ IH].
  - unfold LOCATIONS. apply Forall_forall. intros l Hl.
    apply in_map_iff in Hl. destruct Hl as [r [<- _]]. reflexivity.
  - destruct u as [| raw]; simpl; [exact IH |].
    apply apply_report_fresh, IH.
Qed.

Lemma reachable_scpi_fresh_witness :
  let s := fst (chat_handler (fun _ => Some (mkReply "" (Some "Monastiraki"%string)
                                   (Some "cooling_problem"%string) (Some "high"%string)))
                             (A := Q) LOCATIONS (UpstreamContent "")) in
  reachable s /\ Forall (fun l => s_cpi l = computeSCPI (loc_metrics l)) s.
Proof.
  intros s.
  assert (Hr : reachable s) by (apply reach_chat, reach_init).
  split; [exact Hr | apply (reachable_scpi_fresh s Hr)].
Defined.

(** C7: a report naming a place that no record has, neither exactly nor
    case-insensitively, leaves the store exactly as it is, and the request
    still succeeds (status 200, the parsed reply as body). *)
Theorem recordReport_unresolved_noop {A : Type} `{JSNum A}
    (locs : list (location A)) (nm : string) (intensity : option string) :
  (forall l, In l locs -> name l <> nm /\ toLowerCase (name l) <> toLowerCase nm) ->
  recordReport locs nm intensity = locs /\
  (forall json_parse raw parsed,
      json_parse raw = Some parsed -> placeName parsed = Some nm ->
      chat_handler json_parse locs (UpstreamContent raw) = (locs, (200%Z, parsed))).
Proof.
  intros Hn. pose proof (find_location_unresolved locs nm Hn) as Hf. split.
  - apply (apply_report_unresolved locs (mkReply "" (Some nm) (Some "cooling_problem"%string) intensity) nm eq_refl Hf).
  - intros json_parse raw parsed Hj Hp. simpl. rewrite Hj.
    rewrite (apply_report_unresolved locs parsed nm Hp Hf). reflexivity.
Qed.

Lemma recordReport_unresolved_noop_witness :
  (forall l, In l (LOCATIONS (A := Q)) ->
     name l <> "Nonexistent place"%string /\
     toLowerCase (name l) <> toLowerCase "Nonexistent place"%string) /\
  recordReport (A := Q) LOCATIONS "Nonexistent place" (Some "high"%string) = LOCATIONS.
Proof.
  assert (Hn : forall l, In l (LOCATIONS (A := Q)) ->
     name l <> "Nonexistent place"%string /\
     toLowerCase (name l) <> toLowerCase "Nonexistent place"%string).
  { intros l Hl. simpl in Hl.
    repeat (destruct Hl as [<- | Hl]; [split; vm_compute; discriminate |]).
    destruct Hl. }
  split; [exact Hn |].
  apply (proj1 (recordReport_unresolved_noop LOCATIONS _ (Some "high"%string) Hn)).
Defined.

(** C9: when the call to the completion service fails, [/api/chat] answers
    with status 500 and the fixed body [{ reply: "Sorry, I couldn't reach the
    AI server. ...", placeName: null, reportType: "none", reportIntensity:
    null }], and the store is left exactly as it was. *)
Theorem chat_upstream_failure {A : Type} `{JSNum A}
    (json_parse : string -> option chat_reply) (locs : list (location A)) :
  chat_handler json_parse locs UpstreamFail = (locs, (500%Z, fallback_reply)) /\
  reply fallback_reply = "Sorry, I couldn't reach the AI server. Please try again later."%string /\
  placeName fallback_reply = None /\
  reportType fallback_reply = Some "none"%string /\
  reportIntensity fallback_reply = None.
Proof. repeat split. Qed.

(** ** The sorted listing, in exact arithmetic *)

Module SortQ.
#[local] Open Scope Q_scope.

Abbreviation prio_ge := (fun a b : location Q => s_cpi b <= s_cpi a).
Abbreviation same_prio q := (fun l : location Q => Qeq_bool (s_cpi l) q).

Lemma sort_compare_true (x y : location Q) :
  js_ltb (sort_compare x y) (0 # 1)%js = true -> s_cpi y < s_cpi x.
Proof.
  unfold sort_compare; cbn [js_ltb js_sub js_lit JSNum_Q].
  intros E. apply negb_true_iff in E.
  assert (~ (0 # 1) <= s_cpi y - s_cpi x) as Hn
    by (intros Hle; apply Qle_bool_iff in Hle; congruence).
  apply Qnot_le_lt in Hn. lra.
Qed.

Lemma sort_compare_false (x y : location Q) :
  js_ltb (sort_compare x y) (0 # 1)%js = false -> s_cpi x <= s_cpi y.
Proof.
  unfold sort_compare; cbn [js_ltb js_sub js_lit JSNum_Q].
  intros E. apply negb_false_iff, Qle_bool_iff in E. lra.
Qed.

Lemma insert_by_perm (x : location Q) (l : list (location Q)) :
  Permutation (insert_by x l) (x :: l).
Proof.
  induction l as [| y l IH]; cbn [insert_by]; [reflexivity |].
  destruct (js_ltb (sort_compare x y) (0 # 1)%js); [reflexivity |].
  rewrite IH. apply perm_swap.
Qed.

Lemma insert_by_sorted (x : location Q) (l : list (location Q)) :
  StronglySorted prio_ge l -> StronglySorted prio_ge (insert_by x l).
Proof.
  induction l as [| y l IH]; intros Hs; cbn [insert_by].
  - repeat constructor.
  - inversion Hs as [| ? ? Hl Hy]; subst.
    destruct (js_ltb (sort_compare x y) (0 # 1)%js) eqn:E.
    + apply sort_compare_true in E.
      constructor; [exact Hs |]. constructor; [simpl; lra |].
      eapply Forall_impl; [| exact Hy]. simpl; intros z Hz; lra.
    + apply sort_compare_false in E.
      constructor; [apply IH, Hl |].
      apply Forall_forall. intros z Hz.
      apply (Permutation_in _ (insert_by_perm x l)) in Hz.
      destruct Hz as [<- | Hz]; [exact E |].
      exact (proj1 (Forall_forall _ _) Hy z Hz).
Qed.

Lemma fold_insert_sorted (l acc : list (location Q)) :
  StronglySorted prio_ge acc ->
  StronglySorted prio_ge (fold_left (fun acc x => insert_by x acc) l acc).
Proof.
  revert acc; induction l as [| x l IH]; intros acc Hs; simpl; [exact Hs |].
  apply IH, insert_by_sorted, Hs.
Qed.

Lemma fold_insert_perm (l acc : list (location Q)) :
  Permutation (fold_left (fun acc x => insert_by x acc) l acc) (acc ++ l).
Proof.
  revert acc; induction l as [| x l IH]; intros acc; simpl.
  - rewrite app_nil_r. reflexivity.
  - rewrite IH, (insert_by_perm x acc). apply Permutation_middle.
Qed.

Lemma filter_all_false (q : Q) (l : list (location Q)) :
  (forall z, In z l -> s_cpi z < q) -> filter (same_prio q) l = [].
Proof.
  induction l as [| z l IH]; intros Hl; simpl; [reflexivity |].
  destruct (Qeq_bool (s_cpi z) q) eqn:E.
  - apply Qeq_bool_iff in E. specialize (Hl z (or_introl eq_refl)). lra.
  - apply IH. intros w Hw; apply Hl; right; exact Hw.
Qed.

Lemma filter_insert_by (q : Q) (x : location Q) (acc : list (location Q)) :
  StronglySorted prio_ge acc ->
  filter (same_prio q) (insert_by x acc) = filter (same_prio q) acc ++ filter (same_prio q) [x].
Proof.
  induction acc as [| y acc IH]; intros Hs; cbn [insert_by]; [reflexivity |].
  inversion Hs as [| ? ? Hl Hy]; subst.
  destruct (js_ltb (sort_compare x y) (0 # 1)%js) eqn:E.
  - apply sort_compare_true in E.
    change (filter (same_prio q) (x :: y :: acc)) with
      (if Qeq_bool (s_cpi x) q then x :: filter (same_prio q) (y :: acc)
       else filter (same_prio q) (y :: acc)).
    change (filter (same_prio q) [x]) with (if Qeq_bool (s_cpi x) q then [x] else []).
    destruct (Qeq_bool (s_cpi x) q) eqn:Ex.
    + apply Qeq_bool_iff in Ex.
      rewrite (filter_all_false q (y :: acc)).
      * reflexivity.
      * intros z [<- | Hz]; [lra |].
        pose proof (proj1 (Forall_forall _ _) Hy z Hz) as Hzy. simpl in Hzy. lra.
    + rewrite app_nil_r. reflexivity.
  - simpl. rewrite (IH Hl). destruct (Qeq_bool (s_cpi y) q); reflexivity.
Qed.

Lemma filter_fold_insert (q : Q) (l acc : list (location Q)) :
  StronglySorted prio_ge acc ->
  filter (same_prio q) (fold_left (fun acc x => insert_by x acc) l acc) =
  filter (same_prio q) acc ++ filter (same_prio q) l.
Proof.
  revert acc; induction l as [| x l IH]; intros acc Hs; simpl.
  - rewrite app_nil_r. reflexivity.
  - rewrite (IH _ (insert_by_sorted x acc Hs)), (filter_insert_by q x acc Hs).
    rewrite <- app_assoc. simpl. destruct (Qeq_bool (s_cpi x) q); reflexivity.
Qed.

Lemma StronglySorted_adjacent {T} (R : T -> T -> Prop) (l : list T) (i : nat) (a b : T) :
  StronglySorted R l -> nth_error l i = Some a -> nth_error l (S i) = Some b -> R a b.
Proof.
  intros Hs; revert i; induction Hs as [| y l Hl IH Hy]; intros i Ha Hb.
  - destruct i; discriminate.
  - destruct i as [| i]; simpl in Ha, Hb.
    + injection Ha as <-. apply (nth_error_In l 0) in Hb.
      exact (proj1 (Forall_forall _ _) Hy b Hb).
    + exact (IH i Ha Hb).
Qed.

End SortQ.

Lemma map_update_nth {T U} (g : T -> U) (n : nat) (f : T -> T) (l : list T) :
  (forall x, g (f x) = g x) -> map g (update_nth n f l) = map g l.
Proof.
  intros Hg; revert n; induction l as [| x l IH]; intros [| n]; simpl;
    rewrite ?Hg, ?IH; reflexivity.
Qed.

Lemma reachable_fixture_order {A : Type} `{JSNum A} (s : list (location A)) :
  reachable s -> map id s = [1; 2; 3; 4; 5]%Z.
Proof.
  induction 1 as [| json_parse locs u _ IH]; [reflexivity |].
  destruct u as [| raw]; simpl; [exact IH |].
  unfold apply_report.
  destruct (placeName _) as [p |]; [| exact IH].
  destruct (_ && _); [| exact IH].
  destruct (find_location locs p) as [i |]; [| exact IH].
  rewrite map_update_nth; [exact IH | reflexivity].
Qed.



(** ** The lookup of the chat panel *)

Section Lookup.
Context {A : Type} `{JSNum A}.

Lemma prefix_refl (s : string) : String.prefix s s = true.
Proof.
  induction s as [| c s IH]; simpl; [reflexivity |].
  destruct (ascii_dec c c) as [_ | Hn]; [exact IH | contradiction].
Qed.

Lemma includes_refl (s : string) : includes s s = true.
Proof. destruct s; cbn [includes]; rewrite prefix_refl; reflexivity. Qed.

Lemma find_first {T} (f : T -> bool) (l : list T) (x : T) :
  find f l = Some x ->
  exists pre post, l = pre ++ x :: post /\ f x = true /\ Forall (fun y => f y = false) pre.
Proof.
  induction l as [| y l IH]; simpl; [discriminate |].
  destruct (f y) eqn:Fy.
  - intros E; injection E as <-. exists [], l. auto.
  - intros Hf. destruct (IH Hf) as (pre & post & -> & Fx & Hpre).
    exists (y :: pre), post. simpl. auto.
Qed.

Lemma find_all_false {T} (f : T -> bool) (l : list T) :
  (forall y, In y l -> f y = false) -> find f l = None.
Proof.
  induction l as [| y l IH]; intros Hl; simpl; [reflexivity |].
  rewrite (Hl y (or_introl eq_refl)). apply IH. intros z Hz; apply Hl; right; exact Hz.
Qed.

Lemma find_exact_unambiguous (locations : list (location A)) (t : string) (l : location A) :
  names_unambiguous locations = true -> In l locations ->
  toLowerCase (name l) = t ->
  find (location_matches t) locations = Some l.
Proof.
  induction locations as [| x ls IH]; intros Hu Hin Hl; [destruct Hin |].
  simpl in Hu. apply andb_true_iff in Hu as [Hall Hu].
  simpl. destruct (location_matches t x) eqn:Hx.
  - destruct Hin as [-> | Hin]; [reflexivity | exfalso].
    pose proof (proj1 (forallb_forall _ _) Hall l Hin) as Hxl.
    apply andb_true_iff in Hxl as [Hxl Hlx].
    apply negb_true_iff in Hxl, Hlx. subst t.
    unfold location_matches in Hx.
    rewrite Hxl, Hlx, !orb_false_r in Hx.
    apply String.eqb_eq in Hx. rewrite Hx, includes_refl in Hxl. discriminate.
  - destruct Hin as [-> | Hin].
    + unfold location_matches in Hx. subst t. rewrite String.eqb_refl in Hx. discriminate.
    + exact (IH Hu Hin Hl).
Qed.

End Lookup.




(** ** Further properties of the store *)

Section StoreMore.
Context {A : Type} `{JSNum A}.

Lemma apply_report_cases (locs : list (location A)) (parsed : chat_reply) :
  apply_report locs parsed = locs \/
  exists i, apply_report locs parsed = update_nth i (bump (reportIntensity parsed)) locs.
Proof.
  unfold apply_report.
  destruct (placeName parsed) as [p |]; [| left; reflexivity].
  destruct (_ && _); [| left; reflexivity].
  destruct (find_location locs p) as [i |]; [right; exists i; reflexivity | left; reflexivity].
Qed.

Lemma chat_handler_store_cases (json_parse : string -> option chat_reply)
    (locs : list (location A)) (u : upstream) :
  fst (chat_handler json_parse locs u) = locs \/
  exists i intensity, fst (chat_handler json_parse locs u) = update_nth i (bump intensity) locs.
Proof.
  destruct u as [| raw]; simpl; [left; reflexivity |].
  destruct (apply_report_cases locs
              match json_parse raw with Some p => p | None => mkReply raw None None None end)
    as [E | [i E]]; rewrite E; [left; reflexivity | right; eauto].
Qed.

Lemma fresh_reachable (s : list (location A)) :
  reachable s -> Forall (fun l => s_cpi l = computeSCPI (loc_metrics l)) s.
Proof.
  induction 1 as [| json_parse locs u _ IH].
  - apply Forall_forall. intros l Hl. apply in_map_iff in Hl.
    destruct Hl as [r [<- _]]. reflexivity.
  - destruct (chat_handler_store_cases json_parse locs u) as [-> | (i & intensity & ->)];
      [exact IH |].
    apply Forall_update_nth; [intros x; reflexivity | exact IH].
Qed.

End StoreMore.

(** X1: in every store the server reaches, each record keeps the id, name,
    coordinates, description and every metric except [CCS] that it had in the
    fixture, in the fixture order; [CCS] (and the derived [s_cpi]) are the
    only fields a request ever changes. *)
Theorem reachable_only_ccs_changes {A : Type} `{JSNum A} (s : list (location A)) :
  reachable s ->
  map (fun l => (id l, name l, coords l, info l,
                 (LST (loc_metrics l), NDVI (loc_metrics l), PopulationDensity (loc_metrics l),
                  FeasibilityScore (loc_metrics l), AirQuality (loc_metrics l)))) s =
  map (fun l => (id l, name l, coords l, info l,
                 (LST (loc_metrics l), NDVI (loc_metrics l), PopulationDensity (loc_metrics l),
                  FeasibilityScore (loc_metrics l), AirQuality (loc_metrics l)))) LOCATIONS.
Proof.
  induction 1 as [| json_parse locs u _ IH]; [reflexivity |].
  destruct (chat_handler_store_cases json_parse locs u) as [-> | (i & intensity & ->)];
    [exact IH |].
  rewrite map_update_nth; [exact IH | reflexivity].
Qed.

Lemma reachable_only_ccs_changes_witness :
  let s := fst (chat_handler (fun _ => Some (mkReply "" (Some "Monastiraki"%string)
                                   (Some "cooling_problem"%string) (Some "high"%string)))
                             (A := Q) LOCATIONS (UpstreamContent "")) in
  reachable s /\ map name s = map name (LOCATIONS (A := Q)).
Proof.
  intros s. assert (Hr : reachable s) by (apply reach_chat, reach_init).
  split; [exact Hr |].
  pose proof (f_equal (map (fun x => snd (fst (fst (fst x)))))
                (reachable_only_ccs_changes s Hr)) as E.
  rewrite !map_map in E. exact E.
Defined.

Module StoreQ.
#[local] Open Scope Q_scope.

Lemma bump_ccs_bounds (intensity : option string) (l : location Q) :
  0 <= CCS (loc_metrics (bump intensity l)) <= 100.
Proof.
  simpl. unfold applyReportDelta. cbn [js_add js_lit js_min js_max JSNum_Q].
  split; [apply Q.le_max_l | apply Q.max_lub; [discriminate | apply Q.le_min_l]].
Qed.

Lemma ccs_bounds_reachable (s : list (location Q)) :
  reachable s -> Forall (fun l => 0 <= CCS (loc_metrics l) <= 100) s.
Proof.
  induction 1 as [| json_parse locs u _ IH].
  - repeat constructor; unfold Qle; simpl; lia.
  - destruct (chat_handler_store_cases json_parse locs u) as [-> | (i & intensity & ->)];
      [exact IH |].
    apply Forall_update_nth; [apply bump_ccs_bounds | exact IH].
Qed.

Lemma computeSCPI_bounds (m : metrics Q) :
  0 <= computeSCPI m <= 100 /\ exists k : Z, computeSCPI m * 10 == inject_Z k.
Proof.
  unfold computeSCPI. cbn [js_add js_sub js_mul js_div js_lit js_round js_min js_max JSNum_Q].
  remember (Qfloor _) as z eqn:Ez. clear Ez.
  set (r := inject_Z z / (10 # 1)).
  split.
  - split; [apply Q.le_max_l | apply Q.max_lub; [discriminate | apply Q.le_min_l]].
  - destruct (Q.max_spec (0 # 1) (Qmin (100 # 1) r)) as [[_ E] | [_ E]].
    + destruct (Q.min_spec (100 # 1) r) as [[_ F] | [_ F]].
      * exists 1000%Z. rewrite E, F. reflexivity.
      * exists z. rewrite E, F. unfold r. field.
    + exists 0%Z. rewrite E. reflexivity.
Qed.

Lemma scpi_bounds_reachable (s : list (location Q)) :
  reachable s ->
  Forall (fun l => 0 <= s_cpi l <= 100 /\ exists k : Z, s_cpi l * 10 == inject_Z k) s.
Proof.
  intros Hr. apply Forall_forall. intros l Hl.
  rewrite (proj1 (Forall_forall _ _) (fresh_reachable s Hr) l Hl).
  apply computeSCPI_bounds.
Qed.

End StoreQ.



Lemma Forall2_refl_list {T} (R : T -> T -> Prop) (l : list T) :
  (forall x, R x x) -> Forall2 R l l.
Proof. intros Hr; induction l; constructor; auto. Qed.

Lemma Forall2_update_nth {T} (R : T -> T -> Prop) (n : nat) (f : T -> T) (l : list T) :
  (forall x, R x x) -> (forall x, In x l -> R x (f x)) -> Forall2 R l (update_nth n f l).
Proof.
  intros Hr; revert n; induction l as [| x l IH]; intros [| n] Hf; simpl; constructor.
  - apply Hf; left; reflexivity.
  - apply Forall2_refl_list; exact Hr.
  - apply Hr.
  - apply IH. intros y Hy; apply Hf; right; exact Hy.
Qed.

Lemma bump_ccs_ge (intensity : option string) (l : location Q) :
  (CCS (loc_metrics l) <= 100)%Q ->
  (CCS (loc_metrics l) <= CCS (loc_metrics (bump intensity l)))%Q.
Proof.
  intros H100. pose proof (report_delta_Q_pos intensity) as Hd.
  simpl. unfold applyReportDelta. cbn [js_add js_lit js_min js_max JSNum_Q].
  eapply Qle_trans; [| apply Q.le_max_r].
  apply Q.min_glb; [exact H100 | lra].
Qed.





(** X5: a parsed reply that is not a ["cooling_problem"] report, or that names
    no place (missing or empty [placeName]), is sent back with status 200 as it
    is and leaves the store unchanged. *)
Theorem chat_non_report_keeps_store {A : Type} `{JSNum A}
    (json_parse : string -> option chat_reply) (locs : list (location A))
    (raw : string) (parsed : chat_reply) :
  json_parse raw = Some parsed ->
  (is_cooling_problem (reportType parsed) = false \/
   placeName parsed = None \/ placeName parsed = Some ""%string) ->
  chat_handler json_parse locs (UpstreamContent raw) = (locs, (200%Z, parsed)).
Proof.
  intros E Hc. cbn [chat_handler]. rewrite E. f_equal. unfold apply_report.
  destruct Hc as [Hc | [Hp | Hp]]; rewrite ?Hp; [| reflexivity | reflexivity].
  rewrite Hc. destruct (placeName parsed); [rewrite andb_false_r |]; reflexivity.
Qed.

Lemma chat_non_report_keeps_store_witness :
  let parsed := mkReply "Monastiraki needs shade." (Some "Monastiraki"%string)
                        (Some "info"%string) None in
  chat_handler (fun _ => Some parsed) (LOCATIONS (A := Q)) (UpstreamContent "{}") =
  (LOCATIONS, (200%Z, parsed)).
Proof.
  intros parsed. apply chat_non_report_keeps_store; [reflexivity |].
  left. reflexivity.
Defined.

Lemma string_app_nil_r (s : string) : (s ++ "")%string = s.
Proof. induction s as [| c s IH]; simpl; rewrite ?IH; reflexivity. Qed.

Lemma string_app_assoc (a b c : string) : (a ++ (b ++ c))%string = ((a ++ b) ++ c)%string.
Proof. induction a as [| x a IH]; simpl; rewrite ?IH; reflexivity. Qed.

(** X6: when the completion text is not valid JSON, the server answers 200
    with the raw text as [reply] and no place or report, the store is
    unchanged, and the chat panel shows exactly that raw text, selects no pin
    and does not reload the locations. *)
Theorem chat_unparsed_reply_end_to_end {A : Type} `{JSNum A}
    (json_parse : string -> option chat_reply) (locs locations : list (location A))
    (raw : string) :
  json_parse raw = None ->
  chat_handler json_parse locs (UpstreamContent raw) =
    (locs, (200%Z, mkReply raw None None None)) /\
  sendMessage_outcome locations
    (callChatApi (snd (chat_handler json_parse locs (UpstreamContent raw)))) =
    mkTurn raw None false.
Proof. intros E. simpl. rewrite E. split; reflexivity. Qed.

Lemma chat_unparsed_reply_end_to_end_witness :
  chat_handler (fun _ => None) (LOCATIONS (A := Q)) (UpstreamContent "Plant trees!") =
    (LOCATIONS, (200%Z, mkReply "Plant trees!" None None None)) /\
  sendMessage_outcome LOCATIONS
    (callChatApi (snd (chat_handler (fun _ => None) (LOCATIONS (A := Q))
                                    (UpstreamContent "Plant trees!")))) =
    mkTurn "Plant trees!" None false.
Proof. apply chat_unparsed_reply_end_to_end. reflexivity. Defined.

(** X7: when the completion service fails, the server's 500 answer makes
    [callChatApi] throw, so the panel shows its own apology (never the
    server's [reply]), selects no pin and does not reload the locations. *)
Theorem chat_failure_end_to_end {A : Type} `{JSNum A}
    (json_parse : string -> option chat_reply) (locs locations : list (location A)) :
  callChatApi (snd (chat_handler json_parse locs UpstreamFail)) = ApiThrow /\
  sendMessage_outcome locations (callChatApi (snd (chat_handler json_parse locs UpstreamFail))) =
    mkTurn frontend_fallback_text None false /\
  frontend_fallback_text <> reply fallback_reply.
Proof. split; [reflexivity | split; [reflexivity | discriminate]]. Qed.

(** X8: for a completion that parses as a reply [r], the panel reloads the
    locations exactly when [r] is a ["cooling_problem"] report, selects the pin
    of [findLocationFromName] on [r]'s place, and shows [r]'s reply text
    followed only by the notes it appends. *)
Theorem chat_reply_drives_panel {A : Type} `{JSNum A}
    (json_parse : string -> option chat_reply) (locs locations : list (location A))
    (raw : string) (r : chat_reply) :
  json_parse raw = Some r ->
  let t := sendMessage_outcome locations
             (callChatApi (snd (chat_handler json_parse locs (UpstreamContent raw)))) in
  reload t = is_cooling_problem (reportType r) /\
  selected t = option_map id (findLocationFromName locations (placeName r)) /\
  exists suffix, bot_text t = (reply r ++ suffix)%string.
Proof.
  intros E t. subst t. simpl. rewrite E. unfold callChatApi. simpl.
  unfold sendMessage_outcome.
  set (rt := match reportType r with
             | Some t => if String.eqb t "" then "none"%string else t
             | None => "none"%string
             end).
  assert (Hrt : String.eqb rt "cooling_problem" = is_cooling_problem (reportType r)).
  { subst rt. destruct (reportType r) as [t |]; [| reflexivity].
    destruct (String.eqb_spec t ""); [subst; reflexivity | reflexivity]. }
  cbn [reload selected bot_text]. rewrite Hrt.
  split; [reflexivity | split; [reflexivity |]].
  destruct (findLocationFromName locations (placeName r)) as [l |];
    destruct (is_cooling_problem (reportType r)).
  - eexists. rewrite <- string_app_assoc. reflexivity.
  - eexists. reflexivity.
  - exists ""%string. rewrite string_app_nil_r. reflexivity.
  - exists ""%string. rewrite string_app_nil_r. reflexivity.
Qed.

Lemma chat_reply_drives_panel_witness :
  let r := mkReply "Thanks for the report." (Some "Syntagma"%string)
                   (Some "cooling_problem"%string) (Some "high"%string) in
  let t := sendMessage_outcome (LOCATIONS (A := Q))
             (callChatApi (snd (chat_handler (fun _ => Some r) (LOCATIONS (A := Q))
                                             (UpstreamContent "{}")))) in
  reload t = is_cooling_problem (reportType r) /\
  selected t = option_map id (findLocationFromName LOCATIONS (placeName r)) /\
  exists suffix, bot_text t = (reply r ++ suffix)%string.
Proof. intros r. apply chat_reply_drives_panel. reflexivity. Defined.

Module PanelQ.
#[local] Open Scope Q_scope.

Lemma insert_by_last (x : location Q) (acc : list (location Q)) :
  (forall y, In y acc -> s_cpi x <= s_cpi y) -> insert_by x acc = (acc ++ [x])%list.
Proof.
  induction acc as [| y acc IH]; intros Hx; cbn [insert_by]; [reflexivity |].
  destruct (js_ltb (sort_compare x y) (0 # 1)%js) eqn:E.
  - apply SortQ.sort_compare_true in E.
    specialize (Hx y (or_introl eq_refl)). lra.
  - simpl. f_equal. apply IH. intros z Hz; apply Hx; right; exact Hz.
Qed.

Lemma StronglySorted_app_before {T} (R : T -> T -> Prop) (acc l : list T) (x : T) :
  StronglySorted R (acc ++ x :: l) -> forall y, In y acc -> R y x.
Proof.
  induction acc as [| a acc IH]; intros Hs y Hy; [destruct Hy |].
  inversion Hs as [| ? ? Hl Ha]; subst.
  destruct Hy as [<- | Hy].
  - apply (proj1 (Forall_forall _ _) Ha). apply in_or_app. right; left; reflexivity.
  - exact (IH Hl y Hy).
Qed.

Lemma fold_insert_sorted_id (l acc : list (location Q)) :
  StronglySorted (fun a b => s_cpi b <= s_cpi a) (acc ++ l) ->
  fold_left (fun acc x => insert_by x acc) l acc = (acc ++ l)%list.
Proof.
  revert acc; induction l as [| x l IH]; intros acc Hs; simpl.
  - rewrite app_nil_r. reflexivity.
  - rewrite insert_by_last by exact (StronglySorted_app_before _ acc l x Hs).
    rewrite IH; rewrite <- app_assoc; [reflexivity | exact Hs].
Qed.

Lemma heat_point_spec (l : location Q) :
  0 <= s_cpi l <= 100 ->
  let '(lat, lng, w) := Pin.heat_point l in
  lat = fst (coords l) /\ lng = snd (coords l) /\ w == s_cpi l / 100 /\ 0 <= w <= 1.
Proof.
  intros [H0 H100]. unfold Pin.heat_point.
  assert (Hw : 0 <= s_cpi l / 100 <= 1)
    by (unfold Qdiv; change (Qinv 100) with (1 # 100); split; lra).
  assert (E : Qmax 0 (Qmin 1 (s_cpi l / 100)) == s_cpi l / 100).
  { rewrite (Q.min_r 1 (s_cpi l / 100)) by apply Hw.
    apply Q.max_r, Hw. }
  split; [reflexivity | split; [reflexivity | split; [exact E |]]].
  rewrite E. exact Hw.
Qed.

Lemma round_Z_mono (x y : Q) : x <= y -> (Pin.round_Z x <= Pin.round_Z y)%Z.
Proof. intros Hxy. unfold Pin.round_Z. apply Qfloor_resp_le. lra. Qed.

Lemma round_Z_bounds (a b : Z) (x : Q) :
  inject_Z a <= x -> x <= inject_Z b -> (a <= Pin.round_Z x <= b)%Z.
Proof.
  intros Ha Hb. unfold Pin.round_Z. split.
  - rewrite <- (Qfloor_Z a). apply Qfloor_resp_le. lra.
  - set (z := Qfloor (x + (1 # 2))).
    assert (Hz : inject_Z z <= x + (1 # 2)) by apply Qfloor_le.
    destruct (Z_le_gt_dec z b) as [Hle | Hgt]; [exact Hle | exfalso].
    assert (Hq : inject_Z (b + 1) <= inject_Z z) by (rewrite <- Zle_Qle; lia).
    rewrite inject_Z_plus in Hq. change (inject_Z 1) with (1 # 1) in Hq. lra.
Qed.

End PanelQ.

Ltac pin_consts :=
  unfold Qdiv in *;
  try change (Qinv 50) with (1 # 50) in *; try change (Qinv 100) with (1 # 100) in *;
  try change (255 - 0) with 255 in *; try change (235 - 200) with 35 in *;
  try change (255 - 213) with 42 in *; try change (235 - 0) with 235 in *;
  try change (59 - 0) with 59 in *; try change (28 - 12) with 16 in *;
  unfold inject_Z in *.

Lemma Qle_bool_50_false (s : Q) : Qle_bool s 50 = false -> 50 < s.
Proof.
  intros E. apply Qnot_le_lt. intros Hle. apply Qle_bool_iff in Hle. congruence.
Qed.












Section Priority.
#[local] Open Scope Q_scope.

Lemma feasibility_reachable (s : list (location Q)) :
  reachable s -> Forall (fun l => 0 <= FeasibilityScore (loc_metrics l)) s.
Proof.
  induction 1 as [| json_parse locs u _ IH].
  - repeat constructor; unfold Qle; simpl; lia.
  - destruct (chat_handler_store_cases json_parse locs u) as [-> | (i & intensity & ->)];
      [exact IH |].
    clear -IH. induction IH as [| y l Hy Hl IHl] in i |- *; destruct i; simpl;
      constructor; auto.
Qed.

Lemma bump_scpi_ge (intensity : option string) (l : location Q) :
  0 <= FeasibilityScore (loc_metrics l) -> CCS (loc_metrics l) <= 100 ->
  s_cpi l = computeSCPI (loc_metrics l) -> s_cpi l <= s_cpi (bump intensity l).
Proof.
  intros HF H100 ->. pose proof (bump_ccs_ge intensity l H100) as Hc.
  unfold bump in *. cbn [s_cpi loc_metrics CCS] in *.
  set (m := loc_metrics l) in *.
  set (c' := applyReportDelta (CCS m) intensity) in *.
  unfold computeSCPI. cbn [LST NDVI PopulationDensity CCS FeasibilityScore AirQuality].
  cbn [js_add js_sub js_mul js_div js_lit js_round js_min js_max JSNum_Q].
  apply Q.max_le_compat_l, Q.min_le_compat_l, ScoreQ.inject_Z_div10_le, Qfloor_resp_le.
  set (b := (4 # 10) * LST m + (3 # 10) * ((100 # 1) - NDVI m) +
            (2 # 10) * PopulationDensity m).
  assert (Hm : (b + (1 # 10) * CCS m) * FeasibilityScore m <=
               (b + (1 # 10) * c') * FeasibilityScore m)
    by (apply Qmult_le_compat_r; [lra | exact HF]).
  unfold b in Hm. lra.
Qed.

End Priority.



(** X16: the server and the panel resolve a place name differently. For a
    ["cooling_problem"] report on a place the server cannot resolve (no exact
    and no case-insensitive name match) but that the panel's looser
    [findLocationFromName] matches to some location [l], the store is left
    unchanged, while the panel selects [l], reloads, and tells the user that
    the report raised the area's score. *)
Theorem chat_unresolved_report_announced {A : Type} `{JSNum A}
    (json_parse : string -> option chat_reply) (locs locations : list (location A))
    (raw p : string) (r : chat_reply) (l : location A) :
  json_parse raw = Some r ->
  placeName r = Some p ->
  reportType r = Some "cooling_problem"%string ->
  find_location locs p = None ->
  findLocationFromName locations (Some p) = Some l ->
  fst (chat_handler json_parse locs (UpstreamContent raw)) = locs /\
  sendMessage_outcome locations
    (callChatApi (snd (chat_handler json_parse locs (UpstreamContent raw)))) =
  mkTurn (reply r ++ highlight_note (name l) ++ report_note)%string (Some (id l)) true.
Proof.
  intros E Hp Ht Hf Hl. cbn [chat_handler fst snd]. rewrite E. split.
  - unfold apply_report. rewrite Hp. destruct (_ && _); [rewrite Hf |]; reflexivity.
  - change (callChatApi (200%Z, r)) with (ApiOk r).
    unfold sendMessage_outcome. cbv beta iota. rewrite Hp, Ht.
    replace (String.eqb "cooling_problem" "") with false by reflexivity.
    replace (String.eqb "cooling_problem" "cooling_problem") with true by reflexivity.
    rewrite Hl. cbv beta iota zeta. rewrite string_app_assoc. reflexivity.
Qed.

Lemma chat_unresolved_report_announced_witness :
  let r := mkReply "Thanks, noted." (Some "Syntagma"%string)
                   (Some "cooling_problem"%string) (Some "high"%string) in
  exists l,
    findLocationFromName (LOCATIONS (A := Q)) (Some "Syntagma"%string) = Some l /\
    fst (chat_handler (fun _ => Some r) (LOCATIONS (A := Q)) (UpstreamContent "{}")) =
      LOCATIONS /\
    sendMessage_outcome LOCATIONS
      (callChatApi (snd (chat_handler (fun _ => Some r) (LOCATIONS (A := Q))
                                      (UpstreamContent "{}")))) =
    mkTurn (reply r ++ highlight_note (name l) ++ report_note)%string (Some (id l)) true.
Proof.
  intros r. eexists. split; [vm_compute; reflexivity |].
  apply (chat_unresolved_report_announced _ _ _ _ "Syntagma"%string);
    [reflexivity | reflexivity | reflexivity | vm_compute; reflexivity | ].
  vm_compute. reflexivity.
Defined.

(** X17: the panel only ever selects a pin of the list it was given: whatever
    [callChatApi] returns, a selected id belongs to a location of [locations]
    whose lower-cased name equals, contains or is contained in the lower-cased
    [placeName] of the reply. *)
Theorem sendMessage_selects_listed {A : Type} `{JSNum A}
    (locations : list (location A)) (res : api_result) (i : Z) :
  selected (sendMessage_outcome locations res) = Some i ->
  exists b l p, res = ApiOk b /\ placeName b = Some p /\
                In l locations /\ id l = i /\ location_matches (toLowerCase p) l = true.
Proof.
  intros Hs. unfold sendMessage_outcome in Hs.
  destruct res as [b |]; cbv beta iota in Hs; [| discriminate].
  cbn [selected] in Hs. unfold findLocationFromName in Hs.
  destruct (placeName b) as [p |] eqn:Hp; [| discriminate].
  destruct (String.eqb p "") ; [discriminate |].
  destruct (find (location_matches (toLowerCase p)) locations) as [l |] eqn:Hf;
    [| discriminate].
  injection Hs as <-. apply find_some in Hf. destruct Hf as [Hin Hm].
  exists b, l, p. repeat split; assumption.
Qed.

Lemma sendMessage_selects_listed_witness :
  let res := ApiOk (mkReply "Syntagma is hot." (Some "SYNTAGMA"%string) None None) in
  selected (sendMessage_outcome (LOCATIONS (A := Q)) res) = Some 2%Z /\
  exists b l p, res = ApiOk b /\ placeName b = Some p /\
                In l (LOCATIONS (A := Q)) /\ id l = 2%Z /\
                location_matches (toLowerCase p) l = true.
Proof.
  intros res. assert (Hs : selected (sendMessage_outcome (LOCATIONS (A := Q)) res) = Some 2%Z)
    by (vm_compute; reflexivity).
  split; [exact Hs | exact (sendMessage_selects_listed _ _ _ Hs)].
Defined.
